(** * A shallow embedding of flatflow's epoch scheduler

    [src/flatflow/scheduler/scheduler.h] declares [Scheduler<Index, Size, ...>].
    Its collaborators (the dataset, the Karmarkar-Karp partitioner, shuffle,
    reshape and concat) live in headers that are not part of the sources
    given here; they are modelled from the specification and marked so. *)

From Stdlib Require Import List NArith ZArith Lia Permutation Bool.
Import ListNotations.

Open Scope N_scope.

(** ** Machine integers *)

(** [mapped_type] ([Index]) is an unsigned 64-bit integer; its arithmetic
    wraps modulo [2^64]. *)
Definition mapped_bits : N := 64.

Definition wrap (x : N) : N := x mod 2 ^ mapped_bits.

Definition add_w (a b : N) : N := wrap (a + b).
Definition sub_w (a b : N) : N := wrap (a + 2 ^ mapped_bits - wrap b).
Definition mul_w (a b : N) : N := wrap (a * b).

(** An [Item] in transit: (index, size). *)
Definition item : Type := (N * N)%type.

(** ** [flatbuffers::Vector<key_type, mapped_type>] *)

(** [sizes->size()] returns a [mapped_type]. *)
Definition vsize (l : list N) : N := wrap (N.of_nat (length l)).

(** ** The dataset interface (§4.6)

    Modelled from the spec: [flatflow/data/dataset.h] is not among the
    sources.  The dataset is an abstract state with the operations the
    scheduler forwards to it; [take n] returns the next [n] items of the
    epoch's sampling order. *)
Record Dataset (D : Type) : Type := {
  ds_make : list N -> N -> D;
  take : D -> nat -> list item * D;
  ds_on_batch_begin : D -> N -> D;
  ds_on_batch_end : D -> N -> D;
  ds_on_epoch_begin : D -> N -> D;
  ds_on_epoch_end : D -> N -> D;
  ds_on_train_begin : D -> D;
  ds_on_train_end : D -> D
}.

Arguments ds_make {D} _ _ _.
Arguments take {D} _ _ _.
Arguments ds_on_batch_begin {D} _ _ _.
Arguments ds_on_batch_end {D} _ _ _.
Arguments ds_on_epoch_begin {D} _ _ _.
Arguments ds_on_epoch_end {D} _ _ _.
Arguments ds_on_train_begin {D} _ _.
Arguments ds_on_train_end {D} _ _.

(** Successive [take] calls from one dataset state: the items they return
    in order, and the state left behind. *)
Fixpoint takes {D} (ds : Dataset D) (d : D) (ns : list nat) : list item * D :=
  match ns with
  | [] => ([], d)
  | n :: ns' =>
      let (xs, d1) := take ds d n in
      let (ys, d2) := takes ds d1 ns' in
      (xs ++ ys, d2)
  end.

Definition indices_upto (n : N) : list N := map N.of_nat (seq 0 (N.to_nat n)).

(** The dataset's epoch contract (§4.6): the union of the [take] calls of an
    epoch, whatever the split, returns each index of [0, n) exactly once. *)
Definition epoch_ready {D} (ds : Dataset D) (d : D) (n : N) : Prop :=
  forall ns, list_sum ns = N.to_nat n ->
    Permutation (map fst (fst (takes ds d ns))) (indices_upto n).



(** ** [OverflowSafeCast] (§4.1)

    Modelled from the spec: [flatflow/data/internal/types.h] is not among
    the sources.  A [Size] becomes a signed 64-bit accumulator, saturating at
    its maximum; sums saturate as well. *)
Definition int64_max : Z := (2 ^ 63 - 1)%Z.

Definition OverflowSafeCast (s : N) : Z := Z.min (Z.of_N s) int64_max.

Definition sat_add (a b : Z) : Z := Z.min (a + b) int64_max.

(** ** Karmarkar-Karp partitioner (§4.2)

    Modelled from the spec: [internal/algorithm/partition.h] is not among the
    sources.  A tuple has [K] slots, each a weight and the indices
    accumulated in it.  §3 and §4.4 fix every micro-batch at the same
    number of indices ([M] for [take(M * K)] into [K], [L] for
    [take(L * P)] into [P]); the differencing of §4.2 keeps the slots of a
    tuple equally filled when each starting tuple holds one item per slot,
    so the items start as tuples of [K] consecutive items, item [i] of a
    group in slot [i] with its weight (a short last group leaves its
    remaining slots empty). *)
Definition slot : Type := (Z * list N)%type.
Definition tuple : Type := list slot.

Definition item_slot (x : item) : slot := (OverflowSafeCast (snd x), [fst x]).

Definition group_tuple (K : nat) (xs : list item) : tuple :=
  map item_slot xs ++ repeat (0%Z, []) (K - length xs).

(** The starting tuples, [K] items at a time; [fuel] bounds the groups. *)
Fixpoint initial_tuples (K : nat) (fuel : nat) (items : list item) : list tuple :=
  match fuel, items with
  | O, _ => []
  | _, [] => []
  | S f, _ => group_tuple K (firstn K items) :: initial_tuples K f (skipn K items)
  end.

Definition slot_max (t : tuple) : Z := fold_right (fun s m => Z.max (fst s) m) 0%Z t.
Definition slot_min (t : tuple) : Z :=
  match t with
  | [] => 0%Z
  | s :: t' => fold_right (fun s m => Z.min (fst s) m) (fst s) t'
  end.

Definition spread (t : tuple) : Z := (slot_max t - slot_min t)%Z.

(** Stable insertion sort of the slots; [le] decides whether the inserted
    slot goes before the one it is compared with. *)
Fixpoint insert_slot (le : Z -> Z -> bool) (s : slot) (t : tuple) : tuple :=
  match t with
  | [] => [s]
  | s' :: t' => if le (fst s) (fst s') then s :: s' :: t' else s' :: insert_slot le s t'
  end.

Fixpoint sort_slots (le : Z -> Z -> bool) (t : tuple) : tuple :=
  match t with
  | [] => []
  | s :: t' => insert_slot le s (sort_slots le t')
  end.

Definition sort_desc : tuple -> tuple := sort_slots (fun a b => Z.leb b a).
Definition sort_asc : tuple -> tuple := sort_slots Z.leb.

(** Largest slot of [a] with the smallest of [b], second largest with second
    smallest, and so on. *)
Definition combine_tuples (a b : tuple) : tuple :=
  map (fun p => (sat_add (fst (fst p)) (fst (snd p)), snd (fst p) ++ snd (snd p)))
      (combine (sort_desc a) (sort_asc b)).

(** The priority queue, in insertion order: [pop_max] removes the first
    tuple of greatest spread (ties go to the earliest inserted). *)
Fixpoint pop_max (q : list tuple) : option (tuple * list tuple) :=
  match q with
  | [] => None
  | t :: q' =>
      match pop_max q' with
      | None => Some (t, [])
      | Some (u, r) =>
          if Z.ltb (spread t) (spread u) then Some (u, t :: r) else Some (t, q')
      end
  end.

Fixpoint kk_loop (fuel : nat) (q : list tuple) : list tuple :=
  match fuel with
  | O => q
  | S f =>
      match pop_max q with
      | None => q
      | Some (a, q1) =>
          match pop_max q1 with
          | None => q
          | Some (b, q2) => kk_loop f (q2 ++ [combine_tuples a b])
          end
      end
  end.

(** [K == 0] is rejected; otherwise the [K] slots of the last tuple are the
    micro-batches ([K] empty groups for no items). *)
Definition KarmarkarKarp (items : list item) (K : N) : option (list (list N)) :=
  if N.eqb K 0 then None
  else
    let q := initial_tuples (N.to_nat K) (length items) items in
    match kk_loop (length q) q with
    | [t] => Some (map snd t)
    | _ => Some (repeat [] (N.to_nat K))
    end.

(** ** Shuffle (§4.3)

    Modelled from the spec: [internal/algorithm/shuffle.h] is not among the
    sources.  A Fisher-Yates shuffle of whole micro-batches; the generator is
    left abstract: [engine seed k] is the [k]-th output of the engine seeded
    with [seed]. *)
Fixpoint list_set {A} (l : list A) (i : nat) (x : A) : list A :=
  match l, i with
  | [], _ => []
  | _ :: l', O => x :: l'
  | y :: l', S i' => y :: list_set l' i' x
  end.

Definition swap {A} (l : list A) (i j : nat) : list A :=
  match nth_error l i, nth_error l j with
  | Some a, Some b => list_set (list_set l i b) j a
  | _, _ => l
  end.

Section Shuffle.
Variable engine : N -> nat -> N.

(** For [i] from [n-1] down to [1]: swap positions [i] and
    [engine seed k mod (i+1)], [k] counting the draws. *)
Fixpoint fisher_yates {A} (seed : N) (i k : nat) (l : list A) : list A :=
  match i with
  | O => l
  | S i' =>
      let j := N.to_nat (engine seed k mod N.of_nat (S i')) in
      fisher_yates seed i' (S k) (swap l (S i') j)
  end.

Definition shuffle {A} (l : list A) (seed : N) : list A :=
  fisher_yates seed (length l - 1)%nat 0 l.
End Shuffle.

(** ** Reshape (§4.4)

    Modelled from the spec: [internal/algorithm/reshape.h] is not among the
    sources.  Block-wise layout: with [mu = G / P / M] micro-batches per rank
    and global batch, [M] the configured micro-batch size (the scheduler's
    [micro_batch_size_], passed here as an argument), micro-batch [i] of a
    global batch of [P * mu] goes to rank [i / mu]; each rank's row is the
    concatenation of its micro-batches in stream order. *)
Definition reshape (micro_batches : list (list N)) (P G M : N) : list (list N) :=
  let mu := G / P / M in
  let rank_of (j : nat) : N := (N.of_nat j mod (P * mu)) / mu in
  let numbered := combine (seq 0 (length micro_batches)) micro_batches in
  map (fun r => concat (map snd (filter (fun p => N.eqb (rank_of (fst p)) r) numbered)))
      (map N.of_nat (seq 0 (N.to_nat P))).

(** ** Concat (§4.5)

    Modelled from the spec: [internal/algorithm/concat.h] is not among the
    sources.  [schedule[r] <- schedule[r] ++ tail[r]] for each rank. *)
Definition concat_rows (head tail : list (list N)) : list (list N) :=
  map (fun p => fst p ++ snd p) (combine head tail).

(** ** The scheduler *)

Record Scheduler (D : Type) : Type := mkScheduler {
  data_parallel_size_ : N;
  epoch_ : N;
  global_batch_size_ : N;
  last_micro_batch_size_ : N;
  micro_batch_size_ : N;
  num_micro_batches_ : N;
  seed_ : N;
  dataset_ : D
}.

Arguments mkScheduler {D} _ _ _ _ _ _ _ _.
Arguments data_parallel_size_ {D} _.
Arguments epoch_ {D} _.
Arguments global_batch_size_ {D} _.
Arguments last_micro_batch_size_ {D} _.
Arguments micro_batch_size_ {D} _.
Arguments num_micro_batches_ {D} _.
Arguments seed_ {D} _.
Arguments dataset_ {D} _.

Definition set_epoch {D} (s : Scheduler D) (e : N) : Scheduler D :=
  mkScheduler (data_parallel_size_ s) e (global_batch_size_ s)
    (last_micro_batch_size_ s) (micro_batch_size_ s) (num_micro_batches_ s)
    (seed_ s) (dataset_ s).

Definition set_dataset {D} (s : Scheduler D) (d : D) : Scheduler D :=
  mkScheduler (data_parallel_size_ s) (epoch_ s) (global_batch_size_ s)
    (last_micro_batch_size_ s) (micro_batch_size_ s) (num_micro_batches_ s)
    (seed_ s) d.

(** The copy and move assignment operators are defaulted: memberwise copy. *)
Definition operator_assign {D} (s other : Scheduler D) : Scheduler D :=
  mkScheduler (data_parallel_size_ other) (epoch_ other) (global_batch_size_ other)
    (last_micro_batch_size_ other) (micro_batch_size_ other)
    (num_micro_batches_ other) (seed_ other) (dataset_ other).

(** [assert(c)] aborts when [c] fails. *)
Definition assert (c : bool) : option unit := if c then Some tt else None.

Notation "'let!' x := e 'in' k" := (match e with Some x => k | None => None end)
  (at level 200, x name, e at level 100, k at level 200).

Section Sched.
Context {D : Type} (ds : Dataset D) (engine : N -> nat -> N).

(** [Scheduler::Scheduler(sizes, data_parallel_size, global_batch_size,
    micro_batch_size, seed)].  [sizes] is a pointer ([None] for
    [nullptr]).  [epoch_] is not initialised by the constructor: it holds
    whatever [epoch_init] the storage held. *)
Definition construct (sizes : option (list N))
    (data_parallel_size global_batch_size micro_batch_size seed : N)
    (epoch_init : N) : option (Scheduler D) :=
  let! _ := assert (negb (N.eqb data_parallel_size 0)) in
  let! _ := assert (negb (N.eqb global_batch_size 0)) in
  let! _ := assert (N.eqb (global_batch_size mod data_parallel_size) 0) in
  let! _ := assert (negb (N.eqb micro_batch_size 0)) in
  let! _ := assert (N.eqb (global_batch_size / data_parallel_size mod micro_batch_size) 0) in
  let! l := sizes in
  let! _ := assert (negb (N.eqb (vsize l) 0)) in
  let! _ := assert (N.eqb (vsize l mod data_parallel_size) 0) in
  let num_micro_batches :=
    mul_w (add_w (sub_w (vsize l / data_parallel_size) 1 / micro_batch_size) 1)
          data_parallel_size in
  let last_micro_batch_size :=
    add_w (sub_w (vsize l / data_parallel_size) 1 mod micro_batch_size) 1 in
  Some (mkScheduler data_parallel_size epoch_init global_batch_size
          last_micro_batch_size micro_batch_size num_micro_batches seed
          (ds_make ds l seed)).

(** The seed handed to [shuffle]: [epoch_ + seed_]. *)
Definition shuffle_seed (s : Scheduler D) : N := add_w (epoch_ s) (seed_ s).

(** [Scheduler::Schedule()]; [None] is an abort (the partitioner rejecting
    its target).  The timing logs are omitted. *)
Definition Schedule (s : Scheduler D) : option (list (list N) * Scheduler D) :=
  let P := data_parallel_size_ s in
  let G := global_batch_size_ s in
  let M := micro_batch_size_ s in
  let K := num_micro_batches_ s in
  let L := last_micro_batch_size_ s in
  if N.eqb M L then
    let (items, d1) := take ds (dataset_ s) (N.to_nat (mul_w M K)) in
    let! micro_batches := KarmarkarKarp items K in
    let indices := reshape (shuffle engine micro_batches (shuffle_seed s)) P G M in
    Some (indices, set_dataset s d1)
  else
    let (items, d1) := take ds (dataset_ s) (N.to_nat (mul_w M (sub_w K P))) in
    let! micro_batches := KarmarkarKarp items (sub_w K P) in
    let (last_items, d2) := take ds d1 (N.to_nat (mul_w L P)) in
    let! last_micro_batches := KarmarkarKarp last_items P in
    let indices := reshape (shuffle engine micro_batches (shuffle_seed s)) P G M in
    let last_indices := reshape (shuffle engine last_micro_batches (shuffle_seed s)) P G M in
    Some (concat_rows indices last_indices, set_dataset s d2).

(** The callbacks.  [on_batch_end]'s [rank] and [costs] are unused. *)
Inductive op : Type :=
| OnBatchBegin (batch : N)
| OnBatchEnd (batch rank : N)
| OnEpochBegin (epoch : N)
| OnEpochEnd (epoch : N)
| OnTrainBegin
| OnTrainEnd
| CallSchedule.

Definition step (s : Scheduler D) (o : op) : option (Scheduler D * option (list (list N))) :=
  match o with
  | OnBatchBegin b => Some (set_dataset s (ds_on_batch_begin ds (dataset_ s) b), None)
  | OnBatchEnd b _ => Some (set_dataset s (ds_on_batch_end ds (dataset_ s) b), None)
  | OnEpochBegin e =>
      let s1 := set_epoch s e in
      Some (set_dataset s1 (ds_on_epoch_begin ds (dataset_ s1) e), None)
  | OnEpochEnd e => Some (set_dataset s (ds_on_epoch_end ds (dataset_ s) e), None)
  | OnTrainBegin => Some (set_dataset s (ds_on_train_begin ds (dataset_ s)), None)
  | OnTrainEnd => Some (set_dataset s (ds_on_train_end ds (dataset_ s)), None)
  | CallSchedule =>
      match Schedule s with
      | Some (r, s') => Some (s', Some r)
      | None => None
      end
  end.

(** Runs a sequence of callbacks; the schedules returned, in order. *)
Fixpoint run (s : Scheduler D) (ops : list op) : option (Scheduler D * list (list (list N))) :=
  match ops with
  | [] => Some (s, [])
  | o :: ops' =>
      let! p := step s o in
      let! q := run (fst p) ops' in
      Some (fst q, match snd p with Some r => r :: snd q | None => snd q end)
  end.
End Sched.

Arguments op : clear implicits.

(** ** Concrete collaborators for evaluation

    A dataset that hands out its items in index order and rewinds at each
    epoch, and a [minstd_rand]-style engine. *)
Definition number_items (sizes : list N) : list item :=
  combine (map N.of_nat (seq 0 (length sizes))) sizes.

Definition list_dataset : Dataset (list item * list item) := {|
  ds_make := fun sizes _ => (number_items sizes, number_items sizes);
  take := fun d n => (firstn n (snd d), (fst d, skipn n (snd d)));
  ds_on_batch_begin := fun d _ => d;
  ds_on_batch_end := fun d _ => d;
  ds_on_epoch_begin := fun d _ => (fst d, fst d);
  ds_on_epoch_end := fun d _ => d;
  ds_on_train_begin := fun d => d;
  ds_on_train_end := fun d => d
|}.

Definition minstd_next (x : N) : N := 48271 * x mod 2147483647.

Definition minstd (seed : N) (k : nat) : N :=
  let x0 := seed mod 2147483647 in
  Nat.iter (S k) minstd_next (if N.eqb x0 0 then 1 else x0).

(** * Lemmas *)

(** ** Lists *)

Lemma Permutation_concat {A} (l l' : list (list A)) :
  Permutation l l' -> Permutation (concat l) (concat l').
Proof.
  induction 1; simpl; auto.
  - apply Permutation_app_head; assumption.
  - rewrite !app_assoc. apply Permutation_app_tail, Permutation_app_comm.
  - eapply perm_trans; eassumption.
Qed.

Lemma concat_combine_app {A B} (x : list (B * list A)) (y : list (B * list A)) :
  length x = length y ->
  Permutation (concat (map (fun p => snd (fst p) ++ snd (snd p)) (combine x y)))
              (concat (map snd x) ++ concat (map snd y)).
Proof.
  revert y; induction x as [|a x IH]; intros [|b y] Hl; simpl in *; try discriminate; auto.
  injection Hl as Hl. rewrite <- !app_assoc. apply Permutation_app_head.
  rewrite (IH y Hl). rewrite !app_assoc. apply Permutation_app_tail.
  apply Permutation_app_comm.
Qed.

Lemma concat_rows_perm (h t : list (list N)) :
  length h = length t ->
  Permutation (concat (concat_rows h t)) (concat h ++ concat t).
Proof.
  revert t; induction h as [|a h IH]; intros [|b t] Hl; simpl in *; try discriminate; auto.
  injection Hl as Hl. rewrite <- !app_assoc. apply Permutation_app_head.
  rewrite (IH t Hl). rewrite !app_assoc. apply Permutation_app_tail.
  apply Permutation_app_comm.
Qed.

Lemma concat_rows_length (h t : list (list N)) :
  length h = length t -> length (concat_rows h t) = length h.
Proof.
  intros Hl. unfold concat_rows. rewrite length_map, length_combine, Hl. lia.
Qed.

(** ** The partitioner preserves the indices *)

Definition tuple_indices (t : tuple) : list N := concat (map snd t).

Lemma insert_slot_perm le s t : Permutation (insert_slot le s t) (s :: t).
Proof.
  induction t as [|s' t IH]; simpl; auto.
  destruct (le (fst s) (fst s')); auto.
  eapply perm_trans; [apply perm_skip, IH|apply perm_swap].
Qed.

Lemma sort_slots_perm le t : Permutation (sort_slots le t) t.
Proof.
  induction t as [|s t IH]; simpl; auto.
  eapply perm_trans; [apply insert_slot_perm|auto].
Qed.

Lemma combine_tuples_length a b :
  length a = length b -> length (combine_tuples a b) = length a.
Proof.
  intros H. unfold combine_tuples, sort_desc, sort_asc.
  rewrite length_map, length_combine,
    (Permutation_length (sort_slots_perm _ a)), (Permutation_length (sort_slots_perm _ b)).
  lia.
Qed.

Lemma combine_tuples_indices a b :
  length a = length b ->
  Permutation (tuple_indices (combine_tuples a b)) (tuple_indices a ++ tuple_indices b).
Proof.
  intros H. unfold combine_tuples, tuple_indices, sort_desc, sort_asc.
  rewrite map_map; simpl.
  eapply perm_trans.
  - apply concat_combine_app.
    rewrite (Permutation_length (sort_slots_perm _ a)), (Permutation_length (sort_slots_perm _ b)).
    exact H.
  - apply Permutation_app; apply Permutation_concat, Permutation_map, sort_slots_perm.
Qed.

Lemma pop_max_perm q t r : pop_max q = Some (t, r) -> Permutation q (t :: r).
Proof.
  revert t r; induction q as [|u q IH]; intros t r H; simpl in H; [discriminate|].
  destruct (pop_max q) as [[v r']|] eqn:E.
  - destruct (Z.ltb (spread u) (spread v)); injection H as <- <-.
    + eapply perm_trans; [apply perm_skip, IH; reflexivity|apply perm_swap].
    + reflexivity.
  - injection H as <- <-. destruct q; [reflexivity|simpl in E].
    destruct (pop_max q) as [[? ?]|]; [destruct (Z.ltb _ _)|]; discriminate.
Qed.

Lemma pop_max_none q : pop_max q = None <-> q = [].
Proof.
  split; [|intros ->; reflexivity].
  destruct q; simpl; [auto|]. destruct (pop_max q) as [[? ?]|]; [destruct (Z.ltb _ _)|]; discriminate.
Qed.

Definition queue_indices (q : list tuple) : list N := concat (map tuple_indices q).

Lemma kk_loop_invariant K fuel q :
  Forall (fun t => length t = K) q ->
  Forall (fun t => length t = K) (kk_loop fuel q) /\
  Permutation (queue_indices (kk_loop fuel q)) (queue_indices q).
Proof.
  revert q; induction fuel as [|f IH]; intros q Hq; simpl; [auto|].
  destruct (pop_max q) as [[a q1]|] eqn:E1; [|auto].
  destruct (pop_max q1) as [[b q2]|] eqn:E2; [|auto].
  pose proof (pop_max_perm _ _ _ E1) as P1. pose proof (pop_max_perm _ _ _ E2) as P2.
  assert (Hq1 : Forall (fun t => length t = K) (a :: b :: q2)).
  { eapply Permutation_Forall; [|exact Hq]. eapply perm_trans; [exact P1|auto]. }
  inversion Hq1 as [|? ? Ha Hq1']; subst. inversion Hq1' as [|? ? Hb Hq2]; subst.
  destruct (IH (q2 ++ [combine_tuples a b])) as [IH1 IH2].
  { apply Forall_app; split; [exact Hq2|]. constructor; [|constructor].
    rewrite combine_tuples_length; congruence. }
  split; [exact IH1|]. eapply perm_trans; [exact IH2|].
  unfold queue_indices in *. rewrite map_app, concat_app; simpl; rewrite app_nil_r.
  eapply perm_trans; [apply Permutation_app_head, combine_tuples_indices; congruence|].
  apply Permutation_sym. eapply perm_trans.
  { apply Permutation_concat, Permutation_map. eapply perm_trans; [exact P1|apply perm_skip, P2]. }
  simpl. rewrite app_assoc. apply Permutation_app_comm.
Qed.

Lemma pop_max_length q t r : pop_max q = Some (t, r) -> length r = pred (length q).
Proof. intros H. rewrite (Permutation_length (pop_max_perm _ _ _ H)). reflexivity. Qed.

Lemma kk_loop_single fuel q :
  q <> [] -> (length q <= S fuel)%nat -> length (kk_loop fuel q) = 1%nat.
Proof.
  revert q; induction fuel as [|f IH]; intros q Hne Hl; simpl.
  - destruct q as [|? [|? ?]]; simpl in *; [congruence|reflexivity|lia].
  - destruct (pop_max q) as [[a q1]|] eqn:E1; [|apply pop_max_none in E1; congruence].
    pose proof (pop_max_length _ _ _ E1) as L1.
    destruct (pop_max q1) as [[b q2]|] eqn:E2.
    + pose proof (pop_max_length _ _ _ E2) as L2.
      apply IH; [destruct q2; discriminate|]. rewrite length_app; simpl. lia.
    + apply pop_max_none in E2; subst. destruct q as [|? [|? ?]]; simpl in *; [congruence|reflexivity|lia].
Qed.

Lemma concat_repeat_nil {A} n : concat (repeat (@nil A) n) = [].
Proof. induction n; simpl; auto. Qed.

Lemma group_tuple_length K xs :
  (length xs <= K)%nat -> length (group_tuple K xs) = K.
Proof.
  intros H. unfold group_tuple. rewrite length_app, length_map, repeat_length. lia.
Qed.

Lemma initial_tuples_length K fuel items :
  Forall (fun t => length t = K) (initial_tuples K fuel items).
Proof.
  revert items; induction fuel as [|f IH]; intros [|x items]; simpl; auto.
  constructor; [|apply IH]. apply group_tuple_length.
  change (x :: items) with ([x] ++ items). apply firstn_le_length.
Qed.

Lemma group_tuple_indices K xs : tuple_indices (group_tuple K xs) = map fst xs.
Proof.
  unfold tuple_indices, group_tuple. rewrite map_app, concat_app, map_repeat.
  simpl. rewrite concat_repeat_nil, app_nil_r.
  induction xs as [|x xs IH]; simpl; [reflexivity|]. rewrite IH. reflexivity.
Qed.

Lemma initial_tuples_indices K fuel items :
  K <> 0%nat -> (length items <= fuel)%nat ->
  queue_indices (initial_tuples K fuel items) = map fst items.
Proof.
  intros HK. revert items; induction fuel as [|f IH]; intros items Hl.
  - destruct items; simpl in *; [reflexivity|lia].
  - destruct items as [|x items]; [reflexivity|].
    unfold queue_indices in *. cbn [initial_tuples map concat].
    rewrite group_tuple_indices, IH.
    + rewrite <- map_app, firstn_skipn. reflexivity.
    + rewrite length_skipn. simpl in Hl. change (length (x :: items)) with (S (length items)). lia.
Qed.

Lemma initial_tuples_nil K fuel items :
  (length items <= fuel)%nat -> initial_tuples K fuel items = [] -> items = [].
Proof.
  destruct fuel, items; simpl; intros; auto; try lia; discriminate.
Qed.

Lemma KarmarkarKarp_perm items K mbs :
  KarmarkarKarp items K = Some mbs -> Permutation (concat mbs) (map fst items).
Proof.
  unfold KarmarkarKarp. destruct (N.eqb_spec K 0) as [|HK0]; [discriminate|].
  set (q := initial_tuples (N.to_nat K) (length items) items).
  assert (Hq : Forall (fun t => length t = N.to_nat K) q) by apply initial_tuples_length.
  assert (Hidx : queue_indices q = map fst items)
    by (apply initial_tuples_indices; lia).
  destruct (kk_loop_invariant _ (length q) q Hq) as [_ HP].
  pose proof (kk_loop_single (length q) q) as HS.
  destruct (kk_loop (length q) q) as [|t [|u r]] eqn:E; intros H; injection H as <-.
  - assert (Eq : q = [] \/ q <> []) by (destruct q; [left|right]; congruence).
    destruct Eq as [Eq|Eq].
    + apply initial_tuples_nil in Eq; [|lia]. subst items. rewrite concat_repeat_nil. reflexivity.
    + simpl in HS. discriminate HS; [exact Eq|lia].
  - rewrite <- Hidx. unfold queue_indices in HP. simpl in HP. rewrite app_nil_r in HP. exact HP.
  - assert (Eq : q = [] \/ q <> []) by (destruct q; [left|right]; congruence).
    destruct Eq as [Eq|Eq].
    + rewrite Eq in E. simpl in E. discriminate E.
    + simpl in HS. discriminate HS; [exact Eq|lia].
Qed.

(** ** Shuffle, reshape and concat preserve the indices *)

Lemma list_set_perm {A} (l : list A) i a b :
  nth_error l i = Some a -> Permutation (a :: list_set l i b) (b :: l).
Proof.
  revert i; induction l as [|x l IH]; intros [|i] H; simpl in H; try discriminate.
  - injection H as ->. simpl. apply perm_swap.
  - simpl. eapply perm_trans; [apply perm_swap|].
    eapply perm_trans; [apply perm_skip, IH, H|apply perm_swap].
Qed.

Lemma nth_error_list_set_same {A} (l : list A) i x a :
  nth_error l i = Some a -> nth_error (list_set l i x) i = Some x.
Proof.
  revert i; induction l as [|y l IH]; intros [|i] H; simpl in *; try discriminate; auto.
Qed.

Lemma nth_error_list_set_other {A} (l : list A) i j x :
  i <> j -> nth_error (list_set l i x) j = nth_error l j.
Proof.
  revert i j; induction l as [|y l IH]; intros [|i] [|j] H; simpl; auto; try congruence.
  all: apply IH; congruence.
Qed.

Lemma swap_perm {A} (l : list A) i j : Permutation (swap l i j) l.
Proof.
  unfold swap.
  destruct (nth_error l i) as [a|] eqn:Ei; [|reflexivity].
  destruct (nth_error l j) as [b|] eqn:Ej; [|reflexivity].
  assert (Ej1 : nth_error (list_set l i b) j = Some b).
  { destruct (Nat.eq_dec i j) as [<-|Hne].
    - eapply nth_error_list_set_same; eassumption.
    - rewrite nth_error_list_set_other; assumption. }
  apply (Permutation_cons_inv (a := b)).
  eapply perm_trans; [apply list_set_perm, Ej1|].
  apply list_set_perm, Ei.
Qed.

Lemma fisher_yates_perm engine {A} seed i k (l : list A) :
  Permutation (fisher_yates engine seed i k l) l.
Proof.
  revert k l; induction i as [|i IH]; intros k l; simpl; [reflexivity|].
  eapply perm_trans; [apply IH|apply swap_perm].
Qed.

Lemma shuffle_perm engine {A} (l : list A) seed : Permutation (shuffle engine l seed) l.
Proof. apply fisher_yates_perm. Qed.

(** One row of the reshaped layout grows by [p]; the others are unchanged. *)
Lemma rows_insert (g : N -> list N) (p : list N) (r0 : N) (rs : list N) :
  NoDup rs -> In r0 rs ->
  Permutation (concat (map (fun r => if N.eqb r0 r then p ++ g r else g r) rs))
              (p ++ concat (map g rs)).
Proof.
  induction rs as [|r rs IH]; intros Hnd Hin; [destruct Hin|].
  inversion Hnd as [|? ? Hnotin Hnd']; subst. simpl.
  destruct (N.eqb_spec r0 r) as [<-|Hne].
  - rewrite <- app_assoc. apply Permutation_app_head, Permutation_app_head.
    rewrite (map_ext_in _ g); [reflexivity|].
    intros r Hr. destruct (N.eqb_spec r0 r) as [->|]; [contradiction|reflexivity].
  - destruct Hin as [->|Hin]; [congruence|].
    eapply perm_trans; [apply Permutation_app_head, IH; assumption|].
    rewrite !app_assoc. apply Permutation_app_tail, Permutation_app_comm.
Qed.

Lemma rows_perm (rank : nat -> N) (rs : list N) (l : list (nat * list N)) :
  NoDup rs -> (forall j, In (rank j) rs) ->
  Permutation
    (concat (map (fun r => concat (map snd (filter (fun p => N.eqb (rank (fst p)) r) l))) rs))
    (concat (map snd l)).
Proof.
  intros Hnd Hin. induction l as [|[j mb] l IH]; simpl.
  - clear Hnd Hin. induction rs; simpl; auto.
  - eapply perm_trans; [|apply Permutation_app_head, IH].
    eapply perm_trans; [|apply (rows_insert _ mb (rank j) rs Hnd (Hin j))].
    apply Permutation_refl'. f_equal. apply map_ext. intros r.
    simpl. destruct (N.eqb (rank j) r); reflexivity.
Qed.

Lemma map_snd_combine {A B} (x : list A) (y : list B) :
  length x = length y -> map snd (combine x y) = y.
Proof.
  revert y; induction x; intros [|b y] H; simpl in *; try discriminate; auto.
  f_equal. apply IHx. congruence.
Qed.

Lemma map_fst_combine {A B} (x : list A) (y : list B) :
  length x = length y -> map fst (combine x y) = x.
Proof.
  revert y; induction x; intros [|b y] H; simpl in *; try discriminate; auto.
  f_equal. apply IHx. congruence.
Qed.

Lemma NoDup_indices n : NoDup (map N.of_nat (seq 0 n)).
Proof.
  apply NoDup_map_inv' with (f := N.to_nat) || idtac.
  apply (NoDup_map_NoDup_ForallPairs); [|apply seq_NoDup].
  intros x y _ _ H. lia.
Qed.

Lemma reshape_length mbs P G M : length (reshape mbs P G M) = N.to_nat P.
Proof. unfold reshape. rewrite !length_map, length_seq. reflexivity. Qed.

Lemma reshape_perm mbs P G M :
  P <> 0 -> Permutation (concat (reshape mbs P G M)) (concat mbs).
Proof.
  intros HP. unfold reshape. cbv beta zeta.
  set (mu := G / P / M).
  set (numbered := combine (seq 0 (length mbs)) mbs).
  transitivity (concat (map snd numbered));
    [|unfold numbered; rewrite map_snd_combine; [reflexivity|apply length_seq]].
  apply (rows_perm (fun j => N.of_nat j mod (P * mu) / mu)); [apply NoDup_indices|].
  intros j. apply in_map_iff. exists (N.to_nat (N.of_nat j mod (P * mu) / mu)).
  split; [apply N2Nat.id|]. apply in_seq. clearbody mu numbered.
  assert (Hlt : N.of_nat j mod (P * mu) / mu < P).
  { destruct (N.eq_dec mu 0) as [->|Hmu].
    - rewrite N.div_0_r. lia.
    - apply N.Div0.div_lt_upper_bound. rewrite N.mul_comm. apply N.mod_lt. lia. }
  revert Hlt. generalize (N.of_nat j mod (P * mu) / mu). intros x Hx. lia.
Qed.

(** ** How many indices each micro-batch and each row holds *)

















(** ** Arithmetic of the constructor *)

Lemma wrap_small x : x < 2 ^ mapped_bits -> wrap x = x.
Proof. intros H. apply N.mod_small, H. Qed.

Lemma sub_w_small a b : b <= a < 2 ^ mapped_bits -> sub_w a b = a - b.
Proof.
  intros [H1 H2]. unfold sub_w. rewrite (wrap_small b) by lia.
  replace (a + 2 ^ mapped_bits - b) with (a - b + 1 * 2 ^ mapped_bits) by lia.
  unfold wrap. rewrite N.Div0.mod_add. apply N.mod_small. lia.
Qed.

Lemma vsize_bound l : vsize l < 2 ^ mapped_bits.
Proof. apply N.mod_lt. unfold mapped_bits. lia. Qed.

(** The configuration a successful construction leaves behind, for a
    dataset of [n] samples. *)
Record config_ok {D} (s : Scheduler D) (n : N) : Prop := {
  ok_P : 0 < data_parallel_size_ s;
  ok_G : 0 < global_batch_size_ s;
  ok_GP : global_batch_size_ s mod data_parallel_size_ s = 0;
  ok_M : 0 < micro_batch_size_ s;
  ok_GPM : global_batch_size_ s / data_parallel_size_ s mod micro_batch_size_ s = 0;
  ok_n : 0 < n;
  ok_nP : n mod data_parallel_size_ s = 0;
  ok_bound : n < 2 ^ mapped_bits;
  ok_K : num_micro_batches_ s =
         ((n / data_parallel_size_ s - 1) / micro_batch_size_ s + 1) * data_parallel_size_ s;
  ok_L : last_micro_batch_size_ s =
         (n / data_parallel_size_ s - 1) mod micro_batch_size_ s + 1
}.

Ltac assert_cases :=
  repeat match goal with
  | H : context [assert ?c] |- _ =>
      let E := fresh "E" in destruct c eqn:E; simpl in H; [|discriminate]
  end.

Ltac bool_facts :=
  repeat match goal with
  | E : negb _ = true |- _ => apply negb_true_iff, N.eqb_neq in E
  | E : (_ =? _) = true |- _ => apply N.eqb_eq in E
  | E : (_ =? _) = false |- _ => apply N.eqb_neq in E
  end.

Lemma per_rank_pos n P : 0 < P -> 0 < n -> n mod P = 0 -> 1 <= n / P.
Proof.
  intros HP Hn Hm. pose proof (N.Div0.div_mod n P) as Hd. rewrite Hm in Hd.
  destruct (N.eq_dec (n / P) 0) as [E|]; [|lia]. rewrite E in Hd. lia.
Qed.

Lemma per_rank_le n P : 0 < P -> n / P <= n.
Proof. intros HP. apply N.Div0.div_le_upper_bound; nia. Qed.

Lemma construct_config {D} (ds : Dataset D) l P G M seed e0 s :
  construct ds (Some l) P G M seed e0 = Some s ->
  config_ok s (vsize l) /\
  data_parallel_size_ s = P /\ global_batch_size_ s = G /\ micro_batch_size_ s = M /\
  seed_ s = seed /\ epoch_ s = e0 /\ dataset_ s = ds_make ds l seed.
Proof.
  unfold construct. intros H. assert_cases. injection H as <-. simpl.
  bool_facts.
  pose proof (vsize_bound l) as Hb.
  assert (HP : 0 < P) by lia. assert (HM : 0 < M) by lia.
  pose proof (per_rank_pos (vsize l) P HP ltac:(lia) E5) as H1.
  pose proof (per_rank_le (vsize l) P HP) as H2.
  rewrite sub_w_small by lia.
  assert (Hq : (vsize l / P - 1) / M <= vsize l / P - 1) by (apply N.Div0.div_le_upper_bound; nia).
  assert (HqP : (vsize l / P) * P <= vsize l) by (rewrite N.mul_comm; apply N.Div0.mul_div_le; lia).
  assert (Hr : (vsize l / P - 1) mod M < M) by (apply N.mod_lt; lia).
  assert (Hr' : (vsize l / P - 1) mod M <= vsize l / P - 1) by apply N.Div0.mod_le.
  unfold add_w, mul_w.
  assert (W : (vsize l / P - 1) / M + 1 <= vsize l / P) by lia.
  assert (HqP' : ((vsize l / P - 1) / M + 1) * P <= vsize l)
    by (eapply N.le_trans; [apply N.mul_le_mono_r, W|exact HqP]).
  rewrite (wrap_small ((vsize l / P - 1) / M + 1)) by lia.
  rewrite (wrap_small (((vsize l / P - 1) / M + 1) * P)) by lia.
  rewrite (wrap_small ((vsize l / P - 1) mod M + 1)) by lia.
  repeat split; simpl; try lia; exact Hb.
Qed.

(** With [n = P * per_rank] and [per_rank - 1 = M * q + r]: [K = (q+1) P]
    and [L = r + 1]. *)
Lemma config_decomp {D} (s : Scheduler D) n :
  config_ok s n ->
  exists q r,
    n = data_parallel_size_ s * (n / data_parallel_size_ s) /\
    n / data_parallel_size_ s = micro_batch_size_ s * q + r + 1 /\
    r < micro_batch_size_ s /\
    num_micro_batches_ s = (q + 1) * data_parallel_size_ s /\
    last_micro_batch_size_ s = r + 1.
Proof.
  intros Hc. destruct Hc as [HP HG HGP HM HGPM Hn HnP Hb HK HL].
  set (P := data_parallel_size_ s) in *. set (M := micro_batch_size_ s) in *.
  pose proof (per_rank_pos n P HP Hn HnP) as H1.
  exists ((n / P - 1) / M), ((n / P - 1) mod M).
  pose proof (N.Div0.div_mod n P) as Hd. rewrite HnP, N.add_0_r in Hd.
  pose proof (N.Div0.div_mod (n / P - 1) M) as Hd2.
  pose proof (N.mod_lt (n / P - 1) M ltac:(lia)).
  repeat split; try assumption; lia.
Qed.

Lemma N_mod_decomp a b q r : r < b -> a = b * q + r -> a mod b = r.
Proof. intros Hr ->. rewrite N.add_comm, N.mul_comm, N.Div0.mod_add. apply N.mod_small, Hr. Qed.

(** The branch test [micro_batch_size_ == last_micro_batch_size_]. *)
Lemma uniform_iff {D} (s : Scheduler D) n :
  config_ok s n ->
  N.eqb (micro_batch_size_ s) (last_micro_batch_size_ s) = true <->
  (n / data_parallel_size_ s) mod micro_batch_size_ s = 0.
Proof.
  intros Hc. pose proof (ok_M _ _ Hc) as HM.
  destruct (config_decomp s n Hc) as [q [r [Hn [Hpr [Hr [HK HL]]]]]].
  rewrite N.eqb_eq, HL, Hpr.
  set (M := micro_batch_size_ s) in *.
  split; intros H.
  - apply (N_mod_decomp _ _ (q + 1)); lia.
  - destruct (N.eq_dec (r + 1) M) as [|Hne]; [lia|].
    rewrite (N_mod_decomp _ _ q (r + 1)) in H; lia.
Qed.

(** The number of items each [take] of [Schedule] asks for. *)
Lemma uniform_request {D} (s : Scheduler D) n :
  config_ok s n ->
  micro_batch_size_ s = last_micro_batch_size_ s ->
  mul_w (micro_batch_size_ s) (num_micro_batches_ s) = n /\
  micro_batch_size_ s * num_micro_batches_ s = n.
Proof.
  intros Hc HL'. pose proof (ok_bound _ _ Hc) as Hb.
  destruct (config_decomp s n Hc) as [q [r [Hn [Hpr [Hr [HK HL]]]]]].
  assert (E : micro_batch_size_ s * num_micro_batches_ s = n) by (rewrite HK; nia).
  unfold mul_w. rewrite E, wrap_small by exact Hb. auto.
Qed.

Lemma tail_requests {D} (s : Scheduler D) n :
  config_ok s n ->
  sub_w (num_micro_batches_ s) (data_parallel_size_ s) =
    num_micro_batches_ s - data_parallel_size_ s /\
  mul_w (micro_batch_size_ s) (sub_w (num_micro_batches_ s) (data_parallel_size_ s)) =
    micro_batch_size_ s * (num_micro_batches_ s - data_parallel_size_ s) /\
  mul_w (last_micro_batch_size_ s) (data_parallel_size_ s) =
    last_micro_batch_size_ s * data_parallel_size_ s /\
  (num_micro_batches_ s - data_parallel_size_ s) * micro_batch_size_ s +
    data_parallel_size_ s * last_micro_batch_size_ s = n.
Proof.
  intros Hc. pose proof (ok_bound _ _ Hc) as Hb.
  destruct (config_decomp s n Hc) as [q [r [Hn [Hpr [Hr [HK HL]]]]]].
  assert (HKP : num_micro_batches_ s - data_parallel_size_ s = q * data_parallel_size_ s)
    by (rewrite HK; nia).
  assert (Hsum : q * data_parallel_size_ s * micro_batch_size_ s +
                 data_parallel_size_ s * (r + 1) = n) by nia.
  assert (Hk : data_parallel_size_ s <= num_micro_batches_ s) by (rewrite HK; nia).
  rewrite sub_w_small by (split; [exact Hk|]; rewrite HK; nia).
  unfold mul_w. rewrite !wrap_small; rewrite ?HKP, ?HL; nia.
Qed.

(** ** Frame of the callbacks *)

Definition same_config {D} (s s' : Scheduler D) : Prop :=
  data_parallel_size_ s' = data_parallel_size_ s /\
  global_batch_size_ s' = global_batch_size_ s /\
  last_micro_batch_size_ s' = last_micro_batch_size_ s /\
  micro_batch_size_ s' = micro_batch_size_ s /\
  num_micro_batches_ s' = num_micro_batches_ s /\
  seed_ s' = seed_ s.

Lemma same_config_refl {D} (s : Scheduler D) : same_config s s.
Proof. repeat split. Qed.

Lemma same_config_trans {D} (s1 s2 s3 : Scheduler D) :
  same_config s1 s2 -> same_config s2 s3 -> same_config s1 s3.
Proof. unfold same_config. intros. intuition congruence. Qed.

Lemma config_ok_same {D} (s s' : Scheduler D) n :
  same_config s s' -> config_ok s n -> config_ok s' n.
Proof.
  intros (E1 & E2 & E3 & E4 & E5 & E6) [].
  constructor; rewrite ?E1, ?E2, ?E3, ?E4, ?E5, ?E6; assumption.
Qed.

Section Frame.
Context {D : Type} (ds : Dataset D) (engine : N -> nat -> N).

Lemma Schedule_frame s r s' :
  Schedule ds engine s = Some (r, s') -> exists d, s' = set_dataset s d.
Proof.
  unfold Schedule. destruct (N.eqb _ _).
  - destruct (take ds _ _) as [items d1].
    destruct (KarmarkarKarp _ _); [|discriminate]. intros H; injection H as _ <-. eauto.
  - destruct (take ds _ _) as [items d1].
    destruct (KarmarkarKarp _ _); [|discriminate].
    destruct (take ds _ _) as [items2 d2].
    destruct (KarmarkarKarp _ _); [|discriminate]. intros H; injection H as _ <-. eauto.
Qed.

(** Every callback keeps the configuration; [epoch_] changes only under
    [on_epoch_begin], to its argument. *)
Lemma step_frame s o s' out :
  step ds engine s o = Some (s', out) ->
  same_config s s' /\
  epoch_ s' = match o with OnEpochBegin e => e | _ => epoch_ s end /\
  (o = CallSchedule -> exists d, s' = set_dataset s d).
Proof.
  destruct o; simpl;
    try (intros H; injection H as <- _;
         split; [repeat split|split; [reflexivity|intros; discriminate]]).
  destruct (Schedule ds engine s) as [[r s1]|] eqn:E; [|discriminate].
  intros H; injection H as <- _.
  destruct (Schedule_frame _ _ _ E) as [d ->]. repeat split. eauto.
Qed.

Lemma run_frame s ops s' outs :
  run ds engine s ops = Some (s', outs) -> same_config s s'.
Proof.
  revert s outs; induction ops as [|o ops IH]; intros s outs H; simpl in H.
  - injection H as <- _. apply same_config_refl.
  - destruct (step ds engine s o) as [[s1 out]|] eqn:E1; [|discriminate]. simpl in H.
    destruct (run ds engine s1 ops) as [[s2 outs2]|] eqn:E2; [|discriminate].
    injection H as <- _.
    eapply same_config_trans; [apply (step_frame _ _ _ _ E1)|apply (IH _ _ E2)].
Qed.

Lemma construct_run_config l P G M seed e0 s0 ops s outs :
  construct ds (Some l) P G M seed e0 = Some s0 ->
  run ds engine s0 ops = Some (s, outs) ->
  config_ok s (vsize l) /\ data_parallel_size_ s = P /\ global_batch_size_ s = G /\
  micro_batch_size_ s = M /\ seed_ s = seed.
Proof.
  intros Hc Hr. destruct (construct_config _ _ _ _ _ _ _ _ Hc) as (Hok & E1 & E2 & E3 & E4 & _).
  pose proof (run_frame _ _ _ _ Hr) as Hs.
  split; [eapply config_ok_same; eassumption|].
  destruct Hs as (F1 & F2 & F3 & F4 & F5 & F6). repeat split; congruence.
Qed.
End Frame.

(** ** What [Schedule] returns *)

Section ScheduleFacts.
Context {D : Type} (ds : Dataset D) (engine : N -> nat -> N).

Lemma reshape_shuffle_perm (mbs : list (list N)) seed P G M :
  P <> 0 ->
  Permutation (concat (reshape (shuffle engine mbs seed) P G M)) (concat mbs).
Proof.
  intros HP. eapply perm_trans; [apply reshape_perm, HP|].
  apply Permutation_concat, shuffle_perm.
Qed.

Lemma Schedule_perm s n res s' :
  config_ok s n -> epoch_ready ds (dataset_ s) n ->
  Schedule ds engine s = Some (res, s') ->
  Permutation (concat res) (indices_upto n) /\
  length res = N.to_nat (data_parallel_size_ s).
Proof.
  intros Hc Hd. pose proof (ok_P _ _ Hc) as HP.
  unfold Schedule. destruct (N.eqb _ _) eqn:EU.
  - apply N.eqb_eq in EU. destruct (uniform_request s n Hc EU) as [Hreq _].
    destruct (take ds (dataset_ s) _) as [items d1] eqn:ET.
    destruct (KarmarkarKarp items _) as [mbs|] eqn:EK; [|discriminate].
    intros H; injection H as <- _. split; [|apply reshape_length].
    eapply perm_trans; [apply reshape_shuffle_perm; lia|].
    eapply perm_trans; [apply (KarmarkarKarp_perm _ _ _ EK)|].
    specialize (Hd [N.to_nat (mul_w (micro_batch_size_ s) (num_micro_batches_ s))]).
    simpl in Hd. rewrite ET, app_nil_r in Hd. apply Hd. rewrite Hreq. lia.
  - destruct (tail_requests s n Hc) as (Hsub & Hr1 & Hr2 & Hsum).
    destruct (take ds (dataset_ s) _) as [items d1] eqn:ET.
    destruct (KarmarkarKarp items _) as [mbs|] eqn:EK; [|discriminate].
    destruct (take ds d1 _) as [items2 d2] eqn:ET2.
    destruct (KarmarkarKarp items2 _) as [mbs2|] eqn:EK2; [|discriminate].
    intros H; injection H as <- _.
    split; [|rewrite concat_rows_length; rewrite !reshape_length; reflexivity].
    eapply perm_trans; [apply concat_rows_perm; rewrite !reshape_length; reflexivity|].
    eapply perm_trans.
    { apply Permutation_app; (eapply perm_trans; [apply reshape_shuffle_perm; lia|]);
        eapply KarmarkarKarp_perm; eassumption. }
    rewrite <- map_app.
    specialize (Hd [N.to_nat (mul_w (micro_batch_size_ s)
                                 (sub_w (num_micro_batches_ s) (data_parallel_size_ s)));
                    N.to_nat (mul_w (last_micro_batch_size_ s) (data_parallel_size_ s))]).
    simpl in Hd. rewrite ET, ET2, app_nil_r in Hd. apply Hd.
    rewrite Hr1, Hr2, <- Hsum. lia.
Qed.
End ScheduleFacts.

(** ** The list-backed dataset keeps the epoch contract *)

Lemma firstn_add_skipn {A} n m (l : list A) :
  firstn (n + m) l = firstn n l ++ firstn m (skipn n l).
Proof.
  revert l; induction n as [|n IH]; intros [|x l]; simpl; auto.
  - rewrite firstn_nil. reflexivity.
  - f_equal. apply IH.
Qed.

Lemma takes_list_dataset a r ns :
  takes list_dataset (a, r) ns = (firstn (list_sum ns) r, (a, skipn (list_sum ns) r)).
Proof.
  revert r; induction ns as [|n ns IH]; intros r; simpl; [reflexivity|].
  rewrite IH, firstn_add_skipn, skipn_skipn, Nat.add_comm. reflexivity.
Qed.

Lemma list_dataset_ready a r n :
  map fst r = indices_upto n -> length r = N.to_nat n ->
  epoch_ready list_dataset (a, r) n.
Proof.
  intros Hm Hl ns Hs. rewrite takes_list_dataset. simpl. rewrite Hs, <- Hl, firstn_all, Hm.
  reflexivity.
Qed.

Lemma list_dataset_make_ready sizes seed :
  vsize sizes = N.of_nat (length sizes) ->
  epoch_ready list_dataset (ds_make list_dataset sizes seed) (vsize sizes).
Proof.
  intros Hv. simpl. apply list_dataset_ready.
  - unfold number_items, indices_upto. rewrite Hv, Nat2N.id.
    rewrite map_fst_combine; [reflexivity|]. rewrite length_map, length_seq. reflexivity.
  - unfold number_items. rewrite length_combine, length_map, length_seq, Hv, Nat2N.id. lia.
Qed.


(** ** Runs *)

Lemma run_app {D} (ds : Dataset D) engine s a b s' outs :
  run ds engine s (a ++ b) = Some (s', outs) ->
  exists s1 o1 o2, run ds engine s a = Some (s1, o1) /\ run ds engine s1 b = Some (s', o2).
Proof.
  revert s outs; induction a as [|o a IH]; intros s outs H; simpl in *.
  - eauto.
  - destruct (step ds engine s o) as [[s2 out]|]; [|discriminate]. simpl in *.
    destruct (run ds engine s2 (a ++ b)) as [[s3 outs3]|] eqn:E; [|discriminate].
    injection H as <- _. destruct (IH _ _ E) as (s1 & o1 & o2 & H1 & H2).
    rewrite H1. simpl. eauto.
Qed.

Definition is_epoch_begin (o : op) : bool :=
  match o with OnEpochBegin _ => true | _ => false end.

Lemma run_keeps_epoch {D} (ds : Dataset D) engine s ops s' outs :
  forallb (fun o => negb (is_epoch_begin o)) ops = true ->
  run ds engine s ops = Some (s', outs) -> epoch_ s' = epoch_ s /\ seed_ s' = seed_ s.
Proof.
  revert s outs; induction ops as [|o ops IH]; intros s outs Hn H; simpl in *.
  - injection H as <- _. auto.
  - apply andb_true_iff in Hn as [Ho Hn].
    destruct (step ds engine s o) as [[s1 out]|] eqn:E1; [|discriminate]. simpl in H.
    destruct (run ds engine s1 ops) as [[s2 outs2]|] eqn:E2; [|discriminate].
    injection H as <- _. destruct (step_frame _ _ _ _ _ _ E1) as ((_ & _ & _ & _ & _ & F6) & He & _).
    destruct (IH _ _ Hn E2) as [-> ->]. split; [|exact F6].
    destruct o; simpl in Ho; try discriminate; exact He.
Qed.

(** [Schedule] may run only once an epoch has begun (§5: [on_epoch_begin]
    precedes [Schedule()] in every epoch). *)
Fixpoint epoch_begun_first (begun : bool) (ops : list op) : bool :=
  match ops with
  | [] => true
  | OnEpochBegin _ :: ops' => epoch_begun_first true ops'
  | CallSchedule :: ops' => begun && epoch_begun_first begun ops'
  | _ :: ops' => epoch_begun_first begun ops'
  end.

(** Two schedulers that differ at most in [epoch_]. *)
Definition same_but_epoch {D} (s1 s2 : Scheduler D) : Prop := set_epoch s1 0 = set_epoch s2 0.

Lemma step_same_but_epoch {D} (ds : Dataset D) engine s1 s2 o :
  same_but_epoch s1 s2 -> o <> CallSchedule ->
  match step ds engine s1 o, step ds engine s2 o with
  | Some (t1, out1), Some (t2, out2) =>
      out1 = out2 /\ (if is_epoch_begin o then t1 = t2 else same_but_epoch t1 t2)
  | _, _ => False
  end.
Proof.
  destruct s1, s2; unfold same_but_epoch, set_epoch; simpl.
  intros H Ho; injection H as -> -> -> -> -> -> ->.
  destruct o; simpl; try congruence; split; reflexivity.
Qed.

Lemma run_deterministic {D} (ds : Dataset D) engine ops :
  forall begun s1 s2,
  epoch_begun_first begun ops = true ->
  (if begun then s1 = s2 else same_but_epoch s1 s2) ->
  option_map snd (run ds engine s1 ops) = option_map snd (run ds engine s2 ops).
Proof.
  induction ops as [|o ops IH]; intros begun s1 s2 Hp Hs; [reflexivity|].
  destruct begun; [subst; reflexivity|].
  assert (Hne : o <> CallSchedule) by (intros ->; discriminate Hp).
  pose proof (step_same_but_epoch ds engine s1 s2 o Hs Hne) as Hst. simpl.
  destruct (step ds engine s1 o) as [[t1 out1]|], (step ds engine s2 o) as [[t2 out2]|];
    try contradiction.
  destruct Hst as [<- Ht]. simpl.
  assert (Hr : option_map snd (run ds engine t1 ops) = option_map snd (run ds engine t2 ops)).
  { destruct o; try (exfalso; apply Hne; reflexivity); simpl in Hp, Ht;
      [apply (IH false)|apply (IH false)|subst; reflexivity|apply (IH false)
      |apply (IH false)|apply (IH false)]; assumption. }
  destruct (run ds engine t1 ops) as [[u1 v1]|], (run ds engine t2 ops) as [[u2 v2]|];
    simpl in *; try congruence; injection Hr as ->; reflexivity.
Qed.

(** * The claims *)

Definition scenario_A : list N := [1; 1; 1; 1; 1; 1; 1; 1].

(** C1. For a configuration meeting the preconditions (the constructor
    succeeds), after any callbacks, when the dataset's takes over the epoch
    return each index of [0, N) exactly once, the flattening of what
    [Schedule()] returns is a permutation of [0, N). *)
Theorem Schedule_permutation {D} (ds : Dataset D) engine l P G M seed e0 s0 ops s outs res s' :
  construct ds (Some l) P G M seed e0 = Some s0 ->
  run ds engine s0 ops = Some (s, outs) ->
  epoch_ready ds (dataset_ s) (vsize l) ->
  Schedule ds engine s = Some (res, s') ->
  Permutation (concat res) (indices_upto (vsize l)).
Proof.
  intros Hc Hr Hd HS.
  destruct (construct_run_config ds engine _ _ _ _ _ _ _ _ _ _ Hc Hr) as [Hok _].
  exact (proj1 (Schedule_perm ds engine s _ res s' Hok Hd HS)).
Qed.

Lemma Schedule_permutation_witness :
  exists s0 s outs res s',
    construct list_dataset (Some scenario_A) 2 4 2 0 0 = Some s0 /\
    run list_dataset minstd s0 [OnEpochBegin 0] = Some (s, outs) /\
    epoch_ready list_dataset (dataset_ s) (vsize scenario_A) /\
    Schedule list_dataset minstd s = Some (res, s') /\
    Permutation (concat res) (indices_upto (vsize scenario_A)).
Proof.
  do 5 eexists.
  split; [reflexivity|]. split; [reflexivity|].
  split; [apply list_dataset_ready; reflexivity|]. split; [reflexivity|].
  eapply (Schedule_permutation list_dataset minstd scenario_A 2 4 2 0 0 _ [OnEpochBegin 0] _ _ _ _);
    [reflexivity|reflexivity|apply list_dataset_ready; reflexivity|reflexivity].
Defined.




(** C3. Two schedulers built from the same sizes, sizes of the parallel and
    batch dimensions and seed (hence the same dataset), driven through the
    same callbacks in which every [Schedule()] follows an
    [on_epoch_begin], return the same schedules, whatever the indeterminate
    values their [epoch_] members start with. *)
Theorem Schedule_deterministic {D} (ds : Dataset D) engine l P G M seed e1 e2 s1 s2 ops :
  construct ds (Some l) P G M seed e1 = Some s1 ->
  construct ds (Some l) P G M seed e2 = Some s2 ->
  epoch_begun_first false ops = true ->
  option_map snd (run ds engine s1 ops) = option_map snd (run ds engine s2 ops).
Proof.
  intros H1 H2 Hp. apply (run_deterministic ds engine ops false); [exact Hp|].
  unfold construct in H1, H2. assert_cases. injection H1 as <-. injection H2 as <-.
  reflexivity.
Qed.

Lemma Schedule_deterministic_witness :
  exists s1 s2,
    construct list_dataset (Some scenario_A) 2 4 2 0 0 = Some s1 /\
    construct list_dataset (Some scenario_A) 2 4 2 0 5 = Some s2 /\
    epoch_begun_first false [OnTrainBegin; OnEpochBegin 3; CallSchedule; OnEpochEnd 3] = true /\
    option_map snd (run list_dataset minstd s1 [OnTrainBegin; OnEpochBegin 3; CallSchedule; OnEpochEnd 3]) =
    option_map snd (run list_dataset minstd s2 [OnTrainBegin; OnEpochBegin 3; CallSchedule; OnEpochEnd 3]).
Proof.
  do 2 eexists. split; [reflexivity|]. split; [reflexivity|]. split; [reflexivity|].
  apply (Schedule_deterministic list_dataset minstd scenario_A 2 4 2 0 0 5);
    reflexivity.
Defined.

(** A configuration whose ranks hold fewer samples than a micro-batch:
    [N = 2], [P = 2], [G = 4], [M = 2], so [per_rank = 1 < M]. *)
Definition short_sizes : list N := [1; 1].

(** C4 (failing input).  At [short_sizes] the coverage identity holds
    ([(K - P) * M + P * L = P * per_rank], here [0 * 2 + 2 * 1 = 2]) and the
    two [take] sizes [M * (K - P) = 0] and [L * P = 2] add up to [N], yet the
    call aborts at the head partitioner, after the first [take] of [0] items
    and before the second. *)
Theorem short_config_requests {D} (ds : Dataset D) engine :
  match construct ds (Some short_sizes) 2 4 2 0 0 with
  | Some s =>
      N.eqb (micro_batch_size_ s) (last_micro_batch_size_ s) = false /\
      (num_micro_batches_ s - data_parallel_size_ s) * micro_batch_size_ s +
        data_parallel_size_ s * last_micro_batch_size_ s =
        data_parallel_size_ s * (vsize short_sizes / data_parallel_size_ s) /\
      mul_w (micro_batch_size_ s) (sub_w (num_micro_batches_ s) (data_parallel_size_ s)) = 0 /\
      mul_w (last_micro_batch_size_ s) (data_parallel_size_ s) = 2 /\
      (forall e d, Schedule ds engine (set_dataset (set_epoch s e) d) = None)
  | None => False
  end.
Proof.
  cbn. repeat split. intros e d. unfold Schedule. cbn.
  destruct (take ds d 0). reflexivity.
Qed.

(** The spec's [ceil(x / y)]. *)
Definition ceil_div (x y : N) : N := if N.eqb (x mod y) 0 then x / y else x / y + 1.

(** C5. The branchless expressions of the constructor: [num_micro_batches_]
    is [((per_rank - 1) / M + 1) * P = ceil(per_rank / M) * P], and
    [last_micro_batch_size_] is [((per_rank - 1) mod M) + 1], within [1, M]. *)
Theorem micro_batch_constants {D} (ds : Dataset D) l P G M seed e0 s :
  construct ds (Some l) P G M seed e0 = Some s ->
  num_micro_batches_ s = ((vsize l / P - 1) / M + 1) * P /\
  num_micro_batches_ s = ceil_div (vsize l / P) M * P /\
  last_micro_batch_size_ s = (vsize l / P - 1) mod M + 1 /\
  1 <= last_micro_batch_size_ s <= M.
Proof.
  intros Hc. destruct (construct_config ds _ _ _ _ _ _ _ Hc) as (Hok & EP & _ & EM & _).
  pose proof (ok_K _ _ Hok) as HK. pose proof (ok_L _ _ Hok) as HL.
  pose proof (ok_M _ _ Hok) as HM.
  destruct (config_decomp s _ Hok) as [q [r [Hn [Hpr [Hr [HK' HL']]]]]].
  rewrite EP, EM in *. split; [exact HK|]. split; [|split; [exact HL|lia]].
  rewrite HK'. f_equal. unfold ceil_div.
  destruct (N.eq_dec (r + 1) M) as [Hm|Hm].
  - rewrite <- (N.mod_unique (vsize l / P) M (q + 1) 0) by lia.
    rewrite <- (N.div_unique (vsize l / P) M (q + 1) 0) by lia. reflexivity.
  - rewrite <- (N.mod_unique (vsize l / P) M q (r + 1)) by lia.
    rewrite <- (N.div_unique (vsize l / P) M q (r + 1)) by lia.
    destruct (N.eqb_spec (r + 1) 0); [lia|reflexivity].
Qed.

Lemma micro_batch_constants_witness :
  exists s,
    construct list_dataset (Some (repeat 1 10)) 2 4 2 0 0 = Some s /\
    num_micro_batches_ s = ((vsize (repeat 1 10) / 2 - 1) / 2 + 1) * 2 /\
    num_micro_batches_ s = ceil_div (vsize (repeat 1 10) / 2) 2 * 2 /\
    last_micro_batch_size_ s = (vsize (repeat 1 10) / 2 - 1) mod 2 + 1 /\
    1 <= last_micro_batch_size_ s <= 2.
Proof.
  eexists. split; [reflexivity|].
  eapply (micro_batch_constants list_dataset (repeat 1 10) 2 4 2 0 0). reflexivity.
Defined.

(** C6. [Schedule()] takes the uniform branch exactly when [M] divides
    [per_rank]; then it asks the dataset for [K * M = N] items, which is
    the partitioner's input length for a dataset that hands out what is
    asked. *)
Theorem uniform_branch_iff {D} (ds : Dataset D) engine l P G M seed e0 s0 ops s outs :
  construct ds (Some l) P G M seed e0 = Some s0 ->
  run ds engine s0 ops = Some (s, outs) ->
  (N.eqb (micro_batch_size_ s) (last_micro_batch_size_ s) = true <-> (vsize l / P) mod M = 0) /\
  (N.eqb (micro_batch_size_ s) (last_micro_batch_size_ s) = true ->
   mul_w (micro_batch_size_ s) (num_micro_batches_ s) =
     num_micro_batches_ s * micro_batch_size_ s /\
   num_micro_batches_ s * micro_batch_size_ s = vsize l /\
   ((forall d n, length (fst (take ds d n)) = n) ->
    length (fst (take ds (dataset_ s) (N.to_nat (mul_w (micro_batch_size_ s) (num_micro_batches_ s)))))
    = N.to_nat (num_micro_batches_ s * micro_batch_size_ s))).
Proof.
  intros Hc Hr.
  destruct (construct_run_config ds engine _ _ _ _ _ _ _ _ _ _ Hc Hr) as (Hok & HP & _ & HM & _).
  split; [rewrite (uniform_iff s _ Hok), HP, HM; reflexivity|].
  intros HU. apply N.eqb_eq in HU. destruct (uniform_request s _ Hok HU) as [H1 H2].
  rewrite N.mul_comm. split; [congruence|]. split; [exact H2|].
  intros Ht. rewrite Ht, H1, H2. reflexivity.
Qed.

Lemma uniform_branch_iff_witness :
  exists s0 s outs,
    construct list_dataset (Some scenario_A) 2 4 2 0 0 = Some s0 /\
    run list_dataset minstd s0 [OnEpochBegin 0] = Some (s, outs) /\
    (N.eqb (micro_batch_size_ s) (last_micro_batch_size_ s) = true <-> (vsize scenario_A / 2) mod 2 = 0) /\
    (N.eqb (micro_batch_size_ s) (last_micro_batch_size_ s) = true ->
     mul_w (micro_batch_size_ s) (num_micro_batches_ s) =
       num_micro_batches_ s * micro_batch_size_ s /\
     num_micro_batches_ s * micro_batch_size_ s = vsize scenario_A /\
     ((forall d n, length (fst (take list_dataset d n)) = n) ->
      length (fst (take list_dataset (dataset_ s)
                     (N.to_nat (mul_w (micro_batch_size_ s) (num_micro_batches_ s)))))
      = N.to_nat (num_micro_batches_ s * micro_batch_size_ s))).
Proof.
  do 3 eexists. split; [reflexivity|]. split; [reflexivity|].
  eapply (uniform_branch_iff list_dataset minstd scenario_A 2 4 2 0 0 _ [OnEpochBegin 0]);
    reflexivity.
Defined.

(** C7. Construction aborts, leaving no object, exactly when one of the
    preconditions fails: [P = 0], [G = 0], [G mod P <> 0], [M = 0],
    [(G / P) mod M <> 0], [sizes] null, [N = 0] or [N mod P <> 0]. *)
Theorem construct_fails_iff {D} (ds : Dataset D) sizes P G M seed e0 :
  construct ds sizes P G M seed e0 = None <->
  P = 0 \/ G = 0 \/ G mod P <> 0 \/ M = 0 \/ (G / P) mod M <> 0 \/ sizes = None \/
  (exists l, sizes = Some l /\ (vsize l = 0 \/ vsize l mod P <> 0)).
Proof.
  unfold construct, assert.
  destruct (N.eqb_spec P 0); simpl; [split; auto; discriminate|].
  destruct (N.eqb_spec G 0); simpl; [split; auto; discriminate|].
  destruct (N.eqb_spec (G mod P) 0); simpl; [|split; auto; discriminate].
  destruct (N.eqb_spec M 0); simpl; [split; auto 6; discriminate|].
  destruct (N.eqb_spec (G / P mod M) 0); simpl; [|split; auto 6; discriminate].
  destruct sizes as [l|]; [|split; auto 7; discriminate].
  destruct (N.eqb_spec (vsize l) 0); simpl.
  { split; [intros _|reflexivity]. right; right; right; right; right; right. eauto. }
  destruct (N.eqb_spec (vsize l mod P) 0); simpl.
  - split; [discriminate|].
    intros [H|[H|[H|[H|[H|[H|[l' [Hl [H|H]]]]]]]]]; try congruence.
  - split; [intros _|reflexivity]. right; right; right; right; right; right. eauto.
Qed.

(** C8 (failing input).  At [short_sizes] the tail branch is taken and the
    head partitioner's target [num_micro_batches_ - data_parallel_size_] is
    [0], which the partitioner rejects: every [Schedule()] call of every
    scheduler reached from this construction aborts. *)
Theorem short_config_head_target_zero {D} (ds : Dataset D) engine :
  match construct ds (Some short_sizes) 2 4 2 0 0 with
  | Some s =>
      N.eqb (micro_batch_size_ s) (last_micro_batch_size_ s) = false /\
      sub_w (num_micro_batches_ s) (data_parallel_size_ s) = 0 /\
      (forall items, KarmarkarKarp items 0 = None) /\
      (forall ops s' outs, run ds engine s ops = Some (s', outs) -> Schedule ds engine s' = None)
  | None => False
  end.
Proof.
  cbn. split; [reflexivity|]. split; [reflexivity|]. split; [reflexivity|].
  intros ops s' outs Hr. apply run_frame in Hr.
  destruct Hr as (E1 & E2 & E3 & E4 & E5 & E6). simpl in *.
  unfold Schedule. rewrite E1, E3, E4, E5. cbn.
  destruct (take ds (dataset_ s') 0). reflexivity.
Qed.

(** C9, as stated, fails: the defaulted copy (and move) assignment is a
    public operation and overwrites the configuration. *)
Lemma assign_overwrites_config :
  match construct list_dataset (Some scenario_A) 2 4 2 0 0,
        construct list_dataset (Some scenario_A) 4 8 2 0 0 with
  | Some s, Some t => data_parallel_size_ (operator_assign s t) <> data_parallel_size_ s
  | _, _ => False
  end.
Proof. vm_compute. discriminate. Qed.

(** C9 (amended).  No callback and no [Schedule()] changes the
    configuration or the derived constants; [epoch_] changes only under
    [on_epoch_begin], to its argument; [Schedule()] changes nothing but
    [dataset_].  Assignment replaces every member by the other
    scheduler's. *)
Theorem callbacks_frame {D} (ds : Dataset D) engine s o s' out :
  step ds engine s o = Some (s', out) ->
  same_config s s' /\
  epoch_ s' = match o with OnEpochBegin e => e | _ => epoch_ s end /\
  (o = CallSchedule -> exists d, s' = set_dataset s d) /\
  (forall t, same_config t (operator_assign s t) /\ epoch_ (operator_assign s t) = epoch_ t /\
             dataset_ (operator_assign s t) = dataset_ t).
Proof.
  intros H. destruct (step_frame ds engine s o s' out H) as (H1 & H2 & H3).
  split; [exact H1|]. split; [exact H2|]. split; [exact H3|].
  intros t. repeat split.
Qed.

Lemma callbacks_frame_witness :
  exists s s' out,
    construct list_dataset (Some scenario_A) 2 4 2 0 0 = Some s /\
    step list_dataset minstd s (OnEpochBegin 4) = Some (s', out) /\
    same_config s s' /\ epoch_ s' = 4 /\
    (OnEpochBegin 4 = CallSchedule -> exists d, s' = set_dataset s d) /\
    (forall t, same_config t (operator_assign s t) /\ epoch_ (operator_assign s t) = epoch_ t /\
               dataset_ (operator_assign s t) = dataset_ t).
Proof.
  do 3 eexists. split; [reflexivity|]. split; [reflexivity|].
  eapply (callbacks_frame list_dataset minstd _ (OnEpochBegin 4)). reflexivity.
Defined.

(** C10. The constructor leaves [epoch_] as it finds it, so the shuffle seed
    [epoch_ + seed_] of a fresh scheduler is that indeterminate value plus
    [seed_] and differs with it; once [on_epoch_begin(e)] has been the last
    epoch-begin callback, [Schedule()] shuffles with [e + seed_] (wrapping
    as a [mapped_type]). *)
Theorem shuffle_seed_after_epoch_begin {D} (ds : Dataset D) engine l P G M seed e0 s0 :
  construct ds (Some l) P G M seed e0 = Some s0 ->
  shuffle_seed s0 = add_w e0 seed /\
  (forall e0', e0 < 2 ^ mapped_bits -> e0' < 2 ^ mapped_bits -> e0 <> e0' ->
     exists s0', construct ds (Some l) P G M seed e0' = Some s0' /\
                 shuffle_seed s0' <> shuffle_seed s0) /\
  (forall pre e post s outs,
     run ds engine s0 (pre ++ OnEpochBegin e :: post) = Some (s, outs) ->
     forallb (fun o => negb (is_epoch_begin o)) post = true ->
     shuffle_seed s = add_w e seed).
Proof.
  intros Hc. destruct (construct_config ds _ _ _ _ _ _ _ Hc) as (_ & _ & _ & _ & Es & Ee & _).
  split; [unfold shuffle_seed; rewrite Es, Ee; reflexivity|]. split.
  - intros e0' Hb Hb' Hne.
    assert (Hc' : exists s0', construct ds (Some l) P G M seed e0' = Some s0').
    { unfold construct in Hc |- *. assert_cases. simpl. eauto. }
    destruct Hc' as [s0' Hc']. exists s0'. split; [exact Hc'|].
    destruct (construct_config ds _ _ _ _ _ _ _ Hc') as (_ & _ & _ & _ & Es' & Ee' & _).
    unfold shuffle_seed, add_w, wrap. rewrite Es, Ee, Es', Ee'. intros Heq.
    apply Hne. unfold mapped_bits in *.
    change (2 ^ 64) with 18446744073709551616 in *.
    pose proof (N.Div0.div_mod (e0 + seed) 18446744073709551616) as D1.
    pose proof (N.Div0.div_mod (e0' + seed) 18446744073709551616) as D2.
    pose proof (N.mod_lt (e0 + seed) 18446744073709551616 ltac:(lia)) as R1.
    pose proof (N.mod_lt (e0' + seed) 18446744073709551616 ltac:(lia)) as R2.
    lia.
  - intros pre e post s outs Hr Hpost.
    destruct (run_app ds engine _ _ _ _ _ Hr) as (s1 & o1 & o2 & H1 & H2).
    cbn [run step] in H2.
    destruct (run ds engine _ post) as [[s3 outs3]|] eqn:E3; simpl in H2; [|discriminate].
    injection H2 as Es3 _. subst s.
    unfold shuffle_seed.
    destruct (run_keeps_epoch ds engine _ _ _ _ Hpost E3) as [-> ->]. simpl.
    destruct (run_frame ds engine _ _ _ _ H1) as (_ & _ & _ & _ & _ & F6). rewrite F6, Es.
    reflexivity.
Qed.

Lemma shuffle_seed_after_epoch_begin_witness :
  exists s0,
    construct list_dataset (Some scenario_A) 2 4 2 5 7 = Some s0 /\
    shuffle_seed s0 = add_w 7 5 /\
    (forall e0', 7 < 2 ^ mapped_bits -> e0' < 2 ^ mapped_bits -> 7 <> e0' ->
       exists s0', construct list_dataset (Some scenario_A) 2 4 2 5 e0' = Some s0' /\
                   shuffle_seed s0' <> shuffle_seed s0) /\
    (forall pre e post s outs,
       run list_dataset minstd s0 (pre ++ OnEpochBegin e :: post) = Some (s, outs) ->
       forallb (fun o => negb (is_epoch_begin o)) post = true ->
       shuffle_seed s = add_w e 5).
Proof.
  eexists. split; [reflexivity|].
  apply (shuffle_seed_after_epoch_begin list_dataset minstd scenario_A 2 4 2 5 7).
  reflexivity.
Defined.

(** * Further properties of the scheduler *)



(** The layout the constructor fixes: [num_micro_batches_] is a positive
    multiple of [P], and each rank's [per_rank] samples fill
    [K / P - 1] micro-batches of [M] and one last micro-batch of [L]; [K / P]
    is the least number of micro-batches of [M] that holds [per_rank]. *)
Theorem micro_batch_layout {D} (ds : Dataset D) l P G M seed e0 s :
  construct ds (Some l) P G M seed e0 = Some s ->
  num_micro_batches_ s mod P = 0 /\ P <= num_micro_batches_ s /\
  vsize l / P = (num_micro_batches_ s / P - 1) * M + last_micro_batch_size_ s /\
  (num_micro_batches_ s / P - 1) * M < vsize l / P <= num_micro_batches_ s / P * M.
Proof.
  intros Hc. destruct (construct_config ds _ _ _ _ _ _ _ Hc) as (Hok & EP & _ & EM & _).
  pose proof (ok_P _ _ Hok) as HP.
  destruct (config_decomp s _ Hok) as [q [r [Hn [Hpr [Hr [HK HL]]]]]].
  rewrite EP, EM in *. rewrite HK, HL, Hpr.
  rewrite N.Div0.mod_mul, N.div_mul by lia.
  replace (q + 1 - 1) with q by lia. repeat split; nia.
Qed.

Lemma micro_batch_layout_witness :
  exists s,
    construct list_dataset (Some (repeat 1 10)) 1 3 3 0 0 = Some s /\
    num_micro_batches_ s mod 1 = 0 /\ 1 <= num_micro_batches_ s /\
    vsize (repeat 1 10) / 1 = (num_micro_batches_ s / 1 - 1) * 3 + last_micro_batch_size_ s /\
    (num_micro_batches_ s / 1 - 1) * 3 < vsize (repeat 1 10) / 1 <= num_micro_batches_ s / 1 * 3.
Proof.
  eexists. split; [reflexivity|].
  apply (micro_batch_layout list_dataset (repeat 1 10) 1 3 3 0 0). reflexivity.
Defined.



Lemma Schedule_consumes {D} (ds : Dataset D) engine s n res s' :
  config_ok s n ->
  Schedule ds engine s = Some (res, s') ->
  let ns := if N.eqb (micro_batch_size_ s) (last_micro_batch_size_ s)
            then [N.to_nat n]
            else [N.to_nat (micro_batch_size_ s * (num_micro_batches_ s - data_parallel_size_ s));
                  N.to_nat (last_micro_batch_size_ s * data_parallel_size_ s)] in
  list_sum ns = N.to_nat n /\
  s' = set_dataset s (snd (takes ds (dataset_ s) ns)) /\
  Permutation (concat res) (map fst (fst (takes ds (dataset_ s) ns))).
Proof.
  intros Hok HS ns. subst ns.
  pose proof (ok_P _ _ Hok) as HP.
  unfold Schedule in HS. cbv zeta in HS.
  destruct (N.eqb (micro_batch_size_ s) (last_micro_batch_size_ s)) eqn:EU.
  - apply N.eqb_eq in EU. destruct (uniform_request s _ Hok EU) as [Hreq _].
    rewrite Hreq in HS. cbn [takes].
    destruct (take ds (dataset_ s) _) as [items d1] eqn:ET.
    destruct (KarmarkarKarp items _) as [mbs|] eqn:EK; [|discriminate].
    injection HS as <- <-. simpl. rewrite app_nil_r.
    split; [lia|]. split; [reflexivity|].
    eapply perm_trans; [apply reshape_shuffle_perm; lia|].
    apply (KarmarkarKarp_perm _ _ _ EK).
  - destruct (tail_requests s _ Hok) as (_ & Hr1 & Hr2 & Hsum).
    rewrite Hr1, Hr2 in HS. cbn [takes].
    destruct (take ds (dataset_ s) _) as [items d1] eqn:ET.
    destruct (KarmarkarKarp items _) as [mbs|] eqn:EK; [|discriminate].
    destruct (take ds d1 _) as [items2 d2] eqn:ET2.
    destruct (KarmarkarKarp items2 _) as [mbs2|] eqn:EK2; [|discriminate].
    injection HS as <- <-. simpl. rewrite app_nil_r.
    split; [lia|]. split; [reflexivity|].
    eapply perm_trans; [apply concat_rows_perm; rewrite !reshape_length; reflexivity|].
    rewrite map_app. apply Permutation_app;
      (eapply perm_trans; [apply reshape_shuffle_perm; lia|]);
      eapply KarmarkarKarp_perm; eassumption.
Qed.


(** What a [Schedule()] that returns asks of the dataset: one [take] of
    [N] items in the uniform branch, a [take] of [M * (K - P)] and then one
    of [L * P] items in the tail branch, [N] in all; the scheduler comes
    back with the dataset those takes leave and nothing else changed, and
    the schedule holds exactly the indices the takes handed out. *)
Theorem Schedule_takes {D} (ds : Dataset D) engine l P G M seed e0 s0 ops s outs res s' :
  construct ds (Some l) P G M seed e0 = Some s0 ->
  run ds engine s0 ops = Some (s, outs) ->
  Schedule ds engine s = Some (res, s') ->
  let ns := if N.eqb (micro_batch_size_ s) (last_micro_batch_size_ s)
            then [N.to_nat (vsize l)]
            else [N.to_nat (micro_batch_size_ s * (num_micro_batches_ s - data_parallel_size_ s));
                  N.to_nat (last_micro_batch_size_ s * data_parallel_size_ s)] in
  list_sum ns = N.to_nat (vsize l) /\
  s' = set_dataset s (snd (takes ds (dataset_ s) ns)) /\
  Permutation (concat res) (map fst (fst (takes ds (dataset_ s) ns))).
Proof.
  intros Hc Hr HS.
  destruct (construct_run_config ds engine _ _ _ _ _ _ _ _ _ _ Hc Hr) as (Hok & _).
  exact (Schedule_consumes ds engine s _ res s' Hok HS).
Qed.

Lemma Schedule_takes_witness :
  exists s0 s outs res s',
    construct list_dataset (Some (repeat 1 6)) 2 4 2 0 0 = Some s0 /\
    run list_dataset minstd s0 [OnEpochBegin 2] = Some (s, outs) /\
    Schedule list_dataset minstd s = Some (res, s') /\
    let ns := if N.eqb (micro_batch_size_ s) (last_micro_batch_size_ s)
              then [N.to_nat (vsize (repeat 1 6))]
              else [N.to_nat (micro_batch_size_ s * (num_micro_batches_ s - data_parallel_size_ s));
                    N.to_nat (last_micro_batch_size_ s * data_parallel_size_ s)] in
    list_sum ns = N.to_nat (vsize (repeat 1 6)) /\
    s' = set_dataset s (snd (takes list_dataset (dataset_ s) ns)) /\
    Permutation (concat res) (map fst (fst (takes list_dataset (dataset_ s) ns))).
Proof.
  do 5 eexists. split; [reflexivity|]. split; [reflexivity|]. split; [reflexivity|].
  eapply (Schedule_takes list_dataset minstd (repeat 1 6) 2 4 2 0 0 _ [OnEpochBegin 2]);
    reflexivity.
Defined.


